(** * SentinelArray: a fixed-capacity array with a movable end

    Shallow embedding of [src/SentinelArray.h], the class template
    [SentinelArray<T, N>] that derives from [std::array<T, N>] and adds one
    private member, [m_sentinel], the number of leading slots that the
    length-dependent operations ([end], [rbegin], [size], [at], [back])
    expose.

    Modelling choices.
    - The object is a record of its [N] storage slots (the [std::array] base)
      and the [m_sentinel] word.
    - [size_type] values ([m_sentinel], positions, the loop counter) are
      natural numbers: the class only compares them and uses them as pointer
      offsets, it never does arithmetic that could wrap.
    - Pointers, iterators and references into the storage are offsets from
      [data()].  Pointer arithmetic is unchecked; what is checked is the
      access: a load or a store through an offset outside [0, N) is
      undefined behaviour, and so is the indirection [*p] that [back]
      applies to an iterator when [p] points to no slot.
    - A member function is a state transformer on the object that ends in
      one of four ways: it returns, it throws [std::out_of_range], an
      [assert] aborts the program, or it runs into undefined behaviour.
    - [assert] is the macro of <cassert>: it checks its argument unless the
      translation unit is compiled with [NDEBUG], which is a parameter of
      the model. *)

From Stdlib Require Import Ascii String.
From stdpp Require Import base numbers list strings pretty.

Set Default Proof Using "Type".

(** ** Outcomes of a member function call *)

Inductive outcome (St A : Type) : Type :=
  | Returns (a : A) (s : St)        (* normal return, with the object's state *)
  | Throws (what : string) (s : St) (* std::out_of_range(what) propagates *)
  | AssertionFailure                (* assert(...) failed: abort() *)
  | Undefined.                      (* access outside the storage *)

Arguments Returns {St A} a s.
Arguments Throws {St A} what s.
Arguments AssertionFailure {St A}.
Arguments Undefined {St A}.

Definition method (St A : Type) : Type := St → outcome St A.

Global Instance method_ret {St} : MRet (method St) := λ A a s, Returns a s.

Global Instance method_bind {St} : MBind (method St) := λ A B k m s,
  match m s with
  | Returns a s' => k a s'
  | Throws w s' => Throws w s'
  | AssertionFailure => AssertionFailure
  | Undefined => Undefined
  end.

Definition get {St} : method St St := λ s, Returns s s.

(** [std::to_string] on an unsigned value: its decimal digits. *)
Definition to_string (n : nat) : string := pretty n.

(** Strings made of decimal digits only. *)
Definition is_digit (a : ascii) : bool :=
  bool_decide (a ∈ ["0"; "1"; "2"; "3"; "4"; "5"; "6"; "7"; "8"; "9"]%char).

Fixpoint digits_only (s : string) : bool :=
  match s with
  | EmptyString => true
  | String a s' => is_digit a && digits_only s'
  end.

(** The argument of [std::out_of_range] built in [at]. *)
Definition at_what (pos sentinel : nat) : string :=
  "array::at: pos (which is " +:+ to_string pos +:+
  ") >= m_sentinel (which is " +:+ to_string sentinel +:+ ")".

Section SentinelArray.
Context {T : Type}.
(** The template parameter [N], the capacity. *)
Variable N : nat.
(** Whether the translation unit is compiled with [NDEBUG]. *)
Variable NDEBUG : bool.

(** The object: the inherited [std::array<T,N>] storage and [m_sentinel]. *)
Record SentinelArray : Type := mkSentinelArray {
  elems : list T;
  m_sentinel : nat
}.

(** The storage has exactly [N] slots. *)
Definition storage_ok (c : SentinelArray) : Prop := length (elems c) = N.

(** Invariant I1 of the specification. *)
Definition I1 (c : SentinelArray) : Prop := m_sentinel c ≤ N.

(** Offsets from [data()]. *)
Definition pointer : Type := nat.

(** [*p] read and [*p = v] for [p = data() + offset]. *)
Definition load (p : pointer) : method SentinelArray T := λ c,
  match elems c !! p with
  | Some v => Returns v c
  | None => Undefined
  end.

Definition store (p : pointer) (v : T) : method SentinelArray unit := λ c,
  if decide (p < N)
  then Returns () (mkSentinelArray (<[p:=v]> (elems c)) (m_sentinel c))
  else Undefined.

(** [assert(cond)] *)
Definition assert (cond : bool) : method SentinelArray unit := λ c,
  if NDEBUG then Returns () c
  else if cond then Returns () c else AssertionFailure.

(** [m_sentinel = s] *)
Definition write_sentinel (s : nat) : method SentinelArray unit := λ c,
  Returns () (mkSentinelArray (elems c) s).

(** The copy loop shared by the two sequence constructors and
    [operator=]:
    [for (it = first; it != last; ++it, ++i) this->data()[i] = *it;]
    with the source range given by the list of its elements. *)
Fixpoint copy_loop (i : nat) (src : list T) : method SentinelArray unit :=
  match src with
  | [] => mret ()
  | x :: rest => store i x ;; copy_loop (S i) rest
  end.

(** *** Constructors.  The state a constructor starts from is the raw,
    not yet initialised memory of the object. *)

(** [SentinelArray() = default;]  Default-initialisation: the member
    [m_sentinel] has no initialiser, so nothing is written to it; the
    storage holds whatever default-initialising its elements leaves. *)
Definition SentinelArray_default : method SentinelArray unit := mret ().

(** [SentinelArray(std::initializer_list<T> init)] *)
Definition SentinelArray_init (init : list T) : method SentinelArray unit :=
  write_sentinel (length init) ;;
  c ← get;
  assert (bool_decide (m_sentinel c ≤ N)) ;;
  copy_loop 0 init.

(** [SentinelArray(Iter begin, Iter end)] for random-access iterators;
    [range] lists the elements of [begin, end), and
    [std::distance(begin, end)] is its length. *)
Definition SentinelArray_range (range : list T) : method SentinelArray unit :=
  write_sentinel (length range) ;;
  c ← get;
  assert (bool_decide (m_sentinel c ≤ N)) ;;
  copy_loop 0 range.

(** [operator=(std::initializer_list<T> init)]; it returns [*this]. *)
Definition operator_assign (init : list T) : method SentinelArray unit :=
  write_sentinel (length init) ;;
  c ← get;
  assert (bool_decide (m_sentinel c ≤ N)) ;;
  copy_loop 0 init.

(** *** Iterators *)

(** Inherited [begin()]: [data()]. *)
Definition begin : method SentinelArray pointer := mret 0.

(** [end()], and likewise [cend()]: [data() + m_sentinel]. *)
Definition end_ : method SentinelArray pointer :=
  c ← get; mret (0 + m_sentinel c).
Definition cend : method SentinelArray pointer :=
  c ← get; mret (0 + m_sentinel c).

(** *** Size and capacity *)

Definition size : method SentinelArray nat :=
  c ← get; mret (m_sentinel c).

(** Inherited [max_size()]. *)
Definition max_size : method SentinelArray nat := mret N.

(** *** Element access *)

(** Inherited [operator[]]: a reference to slot [pos], unchecked. *)
Definition operator_subscript (pos : nat) : method SentinelArray pointer :=
  mret (0 + pos).

(** [at(pos)] *)
Definition at_ (pos : nat) : method SentinelArray pointer := λ c,
  if negb (bool_decide (pos < m_sentinel c))
  then Throws (at_what pos (m_sentinel c)) c
  else operator_subscript pos c.

(** [*p] as an lvalue: the reference to the slot that [p] points to.
    Indirection through a pointer that points to no slot of the storage
    (past the last slot, or anywhere when the storage is empty and
    [data()] is null) is undefined. *)
Definition indirect (p : pointer) : method SentinelArray pointer := λ c,
  match elems c !! p with
  | Some _ => Returns p c
  | None => Undefined
  end.

(** [back()]: [m_sentinel ? *(end() - 1) : *end()] *)
Definition back : method SentinelArray pointer :=
  c ← get;
  if bool_decide (m_sentinel c ≠ 0)
  then (e ← end_; indirect (e - 1))
  else (e ← end_; indirect e).

(** [setSentinel(s)] *)
Definition setSentinel (s : nat) : method SentinelArray unit :=
  write_sentinel s.

(** *** Traversal.
    [for (it = first; it != last; ++it) out.push_back( *it );]
    The loop is driven by [it != last] alone, so the model carries fuel;
    [None] means the fuel ran out. *)
Fixpoint traverse (fuel : nat) (it last : pointer) (c : SentinelArray)
    : option (outcome SentinelArray (list T)) :=
  if decide (it = last) then Some (Returns [] c)
  else match fuel with
       | 0 => None
       | S fuel' =>
           match load it c with
           | Returns v c' =>
               match traverse fuel' (S it) last c' with
               | Some (Returns vs c'') => Some (Returns (v :: vs) c'')
               | other => other
               end
           | Throws w c' => Some (Throws w c')
           | AssertionFailure => Some AssertionFailure
           | Undefined => Some Undefined
           end
       end.

(** Iterating the container from [begin()] to [end()]. *)
Definition iterate (fuel : nat) (c : SentinelArray)
    : option (outcome SentinelArray (list T)) :=
  match (b ← begin; e ← end_; mret (b, e)) c with
  | Returns (b, e) c' => traverse fuel b e c'
  | Throws w c' => Some (Throws w c')
  | AssertionFailure => Some AssertionFailure
  | Undefined => Some Undefined
  end.

End SentinelArray.

Arguments SentinelArray T : clear implicits.
Arguments mkSentinelArray {T} elems m_sentinel.

(** ** The life of an object

    What client code can do to an object once it is constructed; [perform]
    runs one such call and discards the returned reference or value. *)

Inductive operation (T : Type) : Type :=
  | Assign (init : list T)          (* c = {...} *)
  | SetSentinel (s : nat)           (* c.setSentinel(s) *)
  | At (pos : nat)                  (* c.at(pos) *)
  | Back                            (* c.back() *)
  | Size                            (* c.size() *)
  | Begin                           (* c.begin() *)
  | End                             (* c.end() *)
  | StoreAt (pos : nat) (v : T).    (* c[pos] = v *)

Arguments Assign {T} init.
Arguments SetSentinel {T} s.
Arguments At {T} pos.
Arguments Back {T}.
Arguments Size {T}.
Arguments Begin {T}.
Arguments End {T}.
Arguments StoreAt {T} pos v.

Definition perform {T} (N : nat) (NDEBUG : bool) (o : operation T)
    : method (SentinelArray T) unit :=
  match o with
  | Assign init => operator_assign N NDEBUG init
  | SetSentinel s => setSentinel s
  | At pos => at_ pos ;; mret ()
  | Back => back ;; mret ()
  | Size => size ;; mret ()
  | Begin => begin ;; mret ()
  | End => end_ ;; mret ()
  | StoreAt pos v => r ← operator_subscript pos; store N r v
  end.

(** The documented preconditions: a sequence no longer than the capacity,
    a sentinel no larger than the capacity. *)
Definition within_precondition {T} (N : nat) (o : operation T) : Prop :=
  match o with
  | Assign init => length init ≤ N
  | SetSentinel s => s ≤ N
  | _ => True
  end.

(** The state of the object once a call is over, when the program goes on:
    after a normal return, or after the exception has been caught. *)
Definition survives {St A} (r : outcome St A) (s' : St) : Prop :=
  match r with
  | Returns _ s | Throws _ s => s = s'
  | AssertionFailure | Undefined => False
  end.

(** Objects built by a sequence constructor from a sequence that fits, and
    then used within the preconditions. *)
Inductive sequence_built {T} (N : nat) (NDEBUG : bool)
    : SentinelArray T → Prop :=
  | built_init raw init c :
      storage_ok N raw → length init ≤ N →
      SentinelArray_init N NDEBUG init raw = Returns () c →
      sequence_built N NDEBUG c
  | built_range raw range c :
      storage_ok N raw → length range ≤ N →
      SentinelArray_range N NDEBUG range raw = Returns () c →
      sequence_built N NDEBUG c
  | built_step c o c' :
      sequence_built N NDEBUG c → within_precondition N o →
      survives (perform N NDEBUG o c) c' →
      sequence_built N NDEBUG c'.

(** ** Reverse iterators

    A [std::reverse_iterator] over the storage is represented by the offset
    of its base pointer: it designates the slot just before the base, and
    incrementing it moves the base down. *)

Section ReverseIterators.
Context {T : Type}.

(** [rbegin()], and likewise [crbegin()]:
    [reverse_iterator(data() + m_sentinel)]. *)
Definition rbegin : method (SentinelArray T) pointer :=
  c ← get; mret (0 + m_sentinel c).
Definition crbegin : method (SentinelArray T) pointer :=
  c ← get; mret (0 + m_sentinel c).

(** Inherited [rend()]: [reverse_iterator(begin())]. *)
Definition rend : method (SentinelArray T) pointer := begin.

(** [*rit], that is [*(base - 1)]; there is nothing before [data()]. *)
Definition rderef (base : pointer) : method (SentinelArray T) T :=
  match base with
  | 0 => λ _, Undefined
  | S p => load p
  end.

(** [for (rit = first; rit != last; ++rit) out.push_back( *rit );]
    where [++rit] decrements the base. *)
Fixpoint rtraverse (fuel : nat) (rit rlast : pointer) (c : SentinelArray T)
    : option (outcome (SentinelArray T) (list T)) :=
  if decide (rit = rlast) then Some (Returns [] c)
  else match fuel with
       | 0 => None
       | S fuel' =>
           match rderef rit c with
           | Returns v c' =>
               match rtraverse fuel' (rit - 1) rlast c' with
               | Some (Returns vs c'') => Some (Returns (v :: vs) c'')
               | other => other
               end
           | Throws w c' => Some (Throws w c')
           | AssertionFailure => Some AssertionFailure
           | Undefined => Some Undefined
           end
       end.

(** Iterating the container from [rbegin()] to [rend()]. *)
Definition riterate (fuel : nat) (c : SentinelArray T)
    : option (outcome (SentinelArray T) (list T)) :=
  match (b ← rbegin; e ← rend; mret (b, e)) c with
  | Returns (b, e) c' => rtraverse fuel b e c'
  | Throws w c' => Some (Throws w c')
  | AssertionFailure => Some AssertionFailure
  | Undefined => Some Undefined
  end.

End ReverseIterators.

(** ** Auxiliary definitions for the statements *)

(** The object [c] after a sequence [init] has been written over its
    leading slots: the sequence, then the old contents from slot
    [length init] on, with the sentinel at [length init]. *)
Definition written {T} (init : list T) (c : SentinelArray T) : SentinelArray T :=
  mkSentinelArray (init ++ drop (length init) (elems c)) (length init).

(** Concrete objects of type [SentinelArray<int, N>] for the examples:
    the memory of a not yet initialised object with automatic storage
    duration holds arbitrary words, here these. *)
Definition raw_int4 : SentinelArray Z := mkSentinelArray [-1; 13; 0; 8]%Z 7.
Definition raw_int1 : SentinelArray Z := mkSentinelArray [5]%Z 0.

(** An empty [SentinelArray<int, 0>]: no slot, the sentinel at 0. *)
Definition empty_int0 : SentinelArray Z := mkSentinelArray [] 0.

(** An empty [SentinelArray<int, 4>] over the same memory as [raw_int4]. *)
Definition empty_int4 : SentinelArray Z := mkSentinelArray [-1; 13; 0; 8]%Z 0.

(** [SentinelArray<int,4>({42, 1337})], the example of the class comment,
    built over [raw_int4]. *)
Definition example_42_1337 : SentinelArray Z :=
  mkSentinelArray [42; 1337; 0; 8]%Z 2.

(** * Properties *)

(** ** The message of [at] determines the position and the sentinel *)

Lemma pretty_N_char_digit x : is_digit (pretty_N_char x) = true.
Proof. unfold pretty_N_char. by repeat case_match. Qed.

Lemma pretty_N_go_digits x : ∀ s,
  digits_only s = true → digits_only (pretty_N_go x s) = true.
Proof.
  induction (N.lt_wf_0 x) as [x _ IH]; intros s Hs.
  destruct (decide (x = 0)%N) as [->|Hx]; [by rewrite pretty_N_go_0|].
  rewrite pretty_N_go_step by lia.
  apply IH; [apply N.div_lt; lia|].
  simpl. by rewrite pretty_N_char_digit.
Qed.

Lemma to_string_digits n : digits_only (to_string n) = true.
Proof.
  unfold to_string, pretty, pretty_nat, pretty, pretty_N.
  case_decide; [done|]. by apply pretty_N_go_digits.
Qed.

Lemma to_string_inj n m : to_string n = to_string m → n = m.
Proof. unfold to_string. apply (inj pretty). Qed.

(** A run of digits followed by a closing parenthesis ends where the
    parenthesis is. *)
Lemma digits_then_paren d1 : ∀ d2 r1 r2,
  digits_only d1 = true → digits_only d2 = true →
  d1 +:+ String ")" r1 = d2 +:+ String ")" r2 → d1 = d2 ∧ r1 = r2.
Proof.
  induction d1 as [|a d1 IH]; intros [|b d2] r1 r2 H1 H2 Heq; simpl in *.
  - by simplify_eq.
  - by simplify_eq.
  - by simplify_eq.
  - apply andb_prop in H1 as [_ H1]. apply andb_prop in H2 as [_ H2].
    injection Heq as -> Heq.
    destruct (IH _ _ _ H1 H2 Heq) as [-> ->]. done.
Qed.

Lemma at_what_inj pos s pos' s' :
  at_what pos s = at_what pos' s' → pos = pos' ∧ s = s'.
Proof.
  unfold at_what. intros Heq. simpl in Heq. simplify_eq.
  match goal with H : _ +:+ _ = _ +:+ _ |- _ =>
    apply digits_then_paren in H as [Hpos Hrest];
      [|apply to_string_digits..]
  end.
  simplify_eq.
  match goal with H : _ +:+ _ = _ +:+ _ |- _ =>
    apply digits_then_paren in H as [Hs _];
      [|apply to_string_digits..]
  end.
  split; by apply to_string_inj.
Qed.

Section Properties.
Context {T : Type}.
Variable N : nat.

Implicit Types (c raw : SentinelArray T) (src init : list T).

(** ** The copy loop *)

Lemma store_in_range p v c :
  p < N →
  store N p v c = Returns () (mkSentinelArray (<[p:=v]> (elems c)) (m_sentinel c)).
Proof. intros Hp. unfold store. by rewrite decide_True. Qed.

Lemma store_out_of_range p v c : N ≤ p → store N p v c = Undefined.
Proof. intros Hp. unfold store. rewrite decide_False; [done | lia]. Qed.

(** Within the storage the loop overwrites the slots [i, i + |src|) with
    [src] and touches nothing else. *)
Lemma copy_loop_in_range src : ∀ i c,
  storage_ok N c → i + length src ≤ N →
  copy_loop N i src c =
    Returns () (mkSentinelArray
                  (take i (elems c) ++ src ++ drop (i + length src) (elems c))
                  (m_sentinel c)).
Proof.
  unfold storage_ok.
  induction src as [|x rest IH]; intros i [l s] Hl Hi; simpl in *.
  - unfold mret, method_ret. f_equal. f_equal.
    by rewrite Nat.add_0_r, take_drop.
  - unfold mbind, method_bind. rewrite store_in_range by lia. simpl.
    rewrite IH; simpl; [| by rewrite length_insert | lia].
    f_equal. f_equal.
    rewrite (take_S_r _ i x); last first.
    { apply list_lookup_insert_eq. lia. }
    rewrite take_insert_ge by lia.
    rewrite drop_insert_lt by lia.
    rewrite <- app_assoc. simpl.
    by replace (i + S (length rest)) with (S (i + length rest)) by lia.
Qed.

(** A source longer than the room left runs the loop past the storage. *)
Lemma copy_loop_overflow src : ∀ i c,
  i ≤ N → N < i + length src → copy_loop N i src c = Undefined.
Proof.
  induction src as [|x rest IH]; intros i c Hle Hi; simpl in *; [lia|].
  unfold mbind, method_bind.
  destruct (decide (i < N)) as [Hlt|Hge].
  - rewrite store_in_range by done. apply IH; lia.
  - rewrite store_out_of_range by lia. done.
Qed.

(** ** Writing a sequence into the object

    The two sequence constructors and [operator=] have the same body, so
    one lemma about that body serves the three. *)

Lemma written_storage_ok init c :
  storage_ok N c → length init ≤ N → storage_ok N (written init c).
Proof.
  unfold storage_ok, written. simpl. intros Hl Hk.
  rewrite length_app, length_drop. lia.
Qed.

Lemma written_prefix init c i :
  i < length init → elems (written init c) !! i = init !! i.
Proof. intros Hi. simpl. by rewrite lookup_app_l. Qed.

Lemma written_tail init c i :
  length init ≤ i → elems (written init c) !! i = elems c !! i.
Proof.
  intros Hi. simpl. rewrite lookup_app_r by done.
  rewrite lookup_drop. f_equal. lia.
Qed.

Section Build.
Variable NDEBUG : bool.

Lemma assert_true c : assert NDEBUG true c = Returns () c.
Proof. unfold assert. by destruct NDEBUG. Qed.

Lemma SentinelArray_init_fits init raw :
  storage_ok N raw → length init ≤ N →
  SentinelArray_init N NDEBUG init raw = Returns () (written init raw).
Proof.
  intros Hl Hk. unfold SentinelArray_init, write_sentinel, get.
  unfold mbind, method_bind. simpl.
  rewrite bool_decide_eq_true_2 by done. rewrite assert_true.
  by rewrite copy_loop_in_range.
Qed.

Lemma SentinelArray_range_fits range raw :
  storage_ok N raw → length range ≤ N →
  SentinelArray_range N NDEBUG range raw = Returns () (written range raw).
Proof. apply SentinelArray_init_fits. Qed.

Lemma operator_assign_fits init c :
  storage_ok N c → length init ≤ N →
  operator_assign N NDEBUG init c = Returns () (written init c).
Proof. apply SentinelArray_init_fits. Qed.
End Build.

(** ** Traversal *)

Lemma load_slot p v c : elems c !! p = Some v → load p c = Returns v c.
Proof. intros H. unfold load. by rewrite H. Qed.

Lemma load_outside p c : length (elems c) ≤ p → load p c = Undefined.
Proof. intros H. unfold load. by rewrite lookup_ge_None_2. Qed.

(** Walking over a stretch of the storage that holds [vs] collects [vs],
    given fuel for one step per element. *)
Lemma traverse_collects vs : ∀ fuel it c,
  (∀ j, j < length vs → elems c !! (it + j) = vs !! j) →
  length vs ≤ fuel →
  traverse fuel it (it + length vs) c = Some (Returns vs c).
Proof.
  induction vs as [|v vs IH]; intros fuel it c Hvs Hfuel; simpl in *.
  - destruct fuel; simpl; rewrite Nat.add_0_r; by rewrite decide_True.
  - destruct fuel as [|fuel]; [lia|]. simpl.
    rewrite decide_False by lia.
    rewrite (load_slot it v).
    2:{ specialize (Hvs 0). rewrite Nat.add_0_r in Hvs. apply Hvs. lia. }
    replace (it + S (length vs)) with (S it + length vs) by lia.
    rewrite IH; [done| |lia].
    intros j Hj. specialize (Hvs (S j)). simpl in Hvs.
    rewrite <- Hvs by lia. f_equal. lia.
Qed.

(** The walk always ends: it stops at [last], or it leaves the storage and
    the load is undefined.  One step per slot and one more are enough. *)
Lemma traverse_ends fuel : ∀ it last c,
  0 < fuel → length (elems c) < it + fuel →
  traverse fuel it last c ≠ None.
Proof.
  induction fuel as [|fuel IH]; intros it last c Hpos Hfuel; [lia|]. simpl.
  case_decide; [done|].
  destruct (decide (it < length (elems c))) as [Hv|Hout];
    [|by rewrite load_outside by lia].
  destruct (lookup_lt_is_Some_2 _ _ Hv) as [v Hit].
  rewrite (load_slot it v) by done.
  specialize (IH (S it) last c).
  destruct (traverse fuel (S it) last c) as [[]|]; try done.
  intros _. by apply IH; [lia | lia |].
Qed.

Lemma iterate_ends c : iterate (S (length (elems c))) c ≠ None.
Proof.
  unfold iterate, begin, end_, get, mbind, method_bind, mret, method_ret.
  apply traverse_ends; lia.
Qed.

Lemma iterate_logical_prefix fuel c :
  m_sentinel c ≤ length (elems c) → m_sentinel c ≤ fuel →
  iterate fuel c = Some (Returns (take (m_sentinel c) (elems c)) c).
Proof.
  intros Hs Hfuel. unfold iterate, begin, end_, get.
  unfold mbind, method_bind, mret, method_ret. simpl.
  pose proof (traverse_collects (take (m_sentinel c) (elems c)) fuel 0 c) as H.
  rewrite length_take, Nat.min_l in H by done. simpl in H. apply H; [|done].
  intros j Hj. by rewrite lookup_take_lt.
Qed.

(** ** Construction and assignment from a sequence *)

(** C1.  For every capacity [N] and every sequence of [k ≤ N] elements,
    both sequence constructors (initializer list, random-access iterator
    pair) return normally, in either build; afterwards [size()] is [k],
    slots [0, k) hold the elements in order, and iterating from [begin()]
    to [end()] yields exactly the sequence (any fuel of at least [k] steps
    is enough for the loop to finish). *)
Theorem construct_from_sequence NDEBUG init raw :
  storage_ok N raw → length init ≤ N →
  ∃ c, SentinelArray_init N NDEBUG init raw = Returns () c
     ∧ SentinelArray_range N NDEBUG init raw = Returns () c
     ∧ storage_ok N c
     ∧ size c = Returns (length init) c
     ∧ (∀ i, i < length init → elems c !! i = init !! i)
     ∧ (∀ fuel, length init ≤ fuel → iterate fuel c = Some (Returns init c)).
Proof.
  intros Hl Hk. exists (written init raw).
  split; [by apply SentinelArray_init_fits|].
  split; [by apply SentinelArray_range_fits|].
  split; [by apply written_storage_ok|].
  split; [done|].
  split; [intros i Hi; by apply written_prefix|].
  intros fuel Hfuel.
  rewrite iterate_logical_prefix; simpl; [|rewrite length_app; lia|done].
  by rewrite take_app_length.
Qed.

(** C3, as amended.  In a build with assertions ([NDEBUG] not defined),
    for every sequence longer than [N] the two sequence constructors and
    [operator=] end in an assertion failure.  With [NDEBUG] the check is
    compiled out and the copy loop runs past the storage: undefined
    behaviour, not an assertion failure. *)
Theorem oversized_sequence_asserts init c :
  N < length init →
  (SentinelArray_init N false init c = AssertionFailure
   ∧ SentinelArray_range N false init c = AssertionFailure
   ∧ operator_assign N false init c = AssertionFailure)
  ∧ (SentinelArray_init N true init c = Undefined
     ∧ SentinelArray_range N true init c = Undefined
     ∧ operator_assign N true init c = Undefined).
Proof.
  intros Hk.
  assert (SentinelArray_init N false init c = AssertionFailure) as Hdebug.
  { unfold SentinelArray_init, write_sentinel, get, assert.
    unfold mbind, method_bind. simpl.
    rewrite bool_decide_eq_false_2; [done | lia]. }
  assert (SentinelArray_init N true init c = Undefined) as Hrelease.
  { unfold SentinelArray_init, write_sentinel, get, assert.
    unfold mbind, method_bind. simpl.
    apply copy_loop_overflow; lia. }
  done.
Qed.

(** C7.  For every object with its [N] slots and every sequence of
    [k ≤ N] elements, assignment returns normally, in either build; it
    leaves slots [0, k) holding the sequence in order, the sentinel at
    [k], and every slot from [k] on holding what it held before. *)
Theorem assign_keeps_tail NDEBUG init c :
  storage_ok N c → length init ≤ N →
  ∃ c', operator_assign N NDEBUG init c = Returns () c'
      ∧ storage_ok N c'
      ∧ m_sentinel c' = length init
      ∧ (∀ i, i < length init → elems c' !! i = init !! i)
      ∧ (∀ i, length init ≤ i → elems c' !! i = elems c !! i).
Proof.
  intros Hl Hk. exists (written init c).
  split; [by apply operator_assign_fits|].
  split; [by apply written_storage_ok|].
  split; [done|].
  split; [intros i Hi; by apply written_prefix|].
  intros i Hi; by apply written_tail.
Qed.

End Properties.

(** ** Length-dependent operations *)

Section Access.
Context {T : Type}.
Implicit Types (c : SentinelArray T).

Lemma at_in_range c pos :
  pos < m_sentinel c → at_ pos c = Returns pos c.
Proof. intros H. unfold at_. by rewrite bool_decide_eq_true_2. Qed.

Lemma at_out_of_range c pos :
  m_sentinel c ≤ pos → at_ pos c = Throws (at_what pos (m_sentinel c)) c.
Proof.
  intros H. unfold at_. rewrite bool_decide_eq_false_2; [done | lia].
Qed.

Lemma at_frame c pos :
  (∃ r, at_ pos c = Returns r c) ∨ (∃ w, at_ pos c = Throws w c).
Proof.
  destruct (decide (pos < m_sentinel c)).
  - left. eexists. by apply at_in_range.
  - right. eexists. apply at_out_of_range. lia.
Qed.

Lemma indirect_slot (p : pointer) c :
  p < length (elems c) → indirect p c = Returns p c.
Proof.
  intros H. unfold indirect.
  destruct (elems c !! p) eqn:E; [done|].
  apply lookup_ge_None in E. unfold pointer in *. lia.
Qed.

Lemma indirect_outside (p : pointer) c :
  length (elems c) ≤ p → indirect p c = Undefined.
Proof.
  intros H. unfold indirect.
  destruct (elems c !! p) eqn:E; [|done].
  apply lookup_lt_Some in E. unfold pointer in *. lia.
Qed.

(** [back()] is the indirection through the slot before the sentinel, or
    through [end()] itself, which is then offset [0], when the container
    is empty. *)
Lemma back_indirect c : back c = indirect (m_sentinel c - 1) c.
Proof.
  unfold back, end_, get, mbind, method_bind, mret, method_ret.
  destruct (m_sentinel c) as [|m] eqn:Hm; simpl; by rewrite Hm.
Qed.

Lemma back_nonempty c :
  0 < m_sentinel c → m_sentinel c ≤ length (elems c) →
  back c = Returns (m_sentinel c - 1) c.
Proof. intros H Hl. rewrite back_indirect. apply indirect_slot. lia. Qed.

Lemma back_empty c :
  m_sentinel c = 0 → 0 < length (elems c) → back c = Returns 0 c.
Proof.
  intros H Hl. rewrite back_indirect, H. by apply indirect_slot.
Qed.

Lemma back_no_slot c :
  m_sentinel c = 0 → length (elems c) = 0 → back c = Undefined.
Proof.
  intros H Hl. rewrite back_indirect, H. apply indirect_outside. lia.
Qed.

(** [back()] returns a reference and leaves the object alone, or it is
    undefined. *)
Lemma back_frame c : (∃ p, back c = Returns p c) ∨ back c = Undefined.
Proof.
  rewrite back_indirect.
  destruct (decide (m_sentinel c - 1 < length (elems c))).
  - left. eexists. by apply indirect_slot.
  - right. apply indirect_outside. lia.
Qed.


Lemma end_offset c : end_ c = Returns (m_sentinel c) c.
Proof. done. Qed.

(** C2.  For every object and every position, [at(pos)] throws exactly
    when [pos >= m_sentinel]; the capacity plays no part in the check.
    The exception's message is built from the decimal renderings of the
    position and of the sentinel, and both can be read back from it.
    When [pos < m_sentinel], [at(pos)] is [operator[](pos)]: the same
    reference to slot [pos], hence the same value when read. *)
Theorem at_checks_against_length c pos :
  ((∃ w c', at_ pos c = Throws w c') ↔ m_sentinel c ≤ pos)
  ∧ (m_sentinel c ≤ pos →
       at_ pos c = Throws (at_what pos (m_sentinel c)) c
       ∧ ∀ pos' s', at_what pos' s' = at_what pos (m_sentinel c) →
                    pos' = pos ∧ s' = m_sentinel c)
  ∧ (pos < m_sentinel c →
       at_ pos c = Returns pos c
       ∧ at_ pos c = operator_subscript pos c
       ∧ (r ← at_ pos; load r) c = (r ← operator_subscript pos; load r) c).
Proof.
  destruct (decide (pos < m_sentinel c)) as [Hlt|Hge].
  - rewrite at_in_range by done.
    split; [split; [by intros (? & ? & ?) | lia] |].
    split; [lia|]. intros _.
    unfold mbind, method_bind. by rewrite at_in_range.
  - rewrite at_out_of_range by lia.
    split; [split; [lia | eauto] |].
    split; [|lia]. intros _. split; [done|].
    intros pos' s'. apply at_what_inj.
Qed.

(** C10.  [at(pos)] leaves the object as it was, whether it returns a
    reference or throws: the sentinel and all the slots are unchanged. *)
Theorem at_leaves_object_unchanged c pos :
  (∃ r, at_ pos c = Returns r c) ∨ (∃ w, at_ pos c = Throws w c).
Proof. apply at_frame. Qed.

(** C6.  For every object and every [s], and so for every [s ≤ N],
    [setSentinel(s)] returns, [size()] is then [s], and the storage is
    untouched: every slot, in particular those below
    [min(old length, s)], holds what it held before. *)
Theorem setSentinel_moves_end_only c s :
  ∃ c', setSentinel s c = Returns () c'
      ∧ size c' = Returns s c'
      ∧ elems c' = elems c
      ∧ (∀ i, i < m_sentinel c `min` s → elems c' !! i = elems c !! i).
Proof. by exists (mkSentinelArray (elems c) s). Qed.

(** C8, as amended.  For every object with its [N] slots, its sentinel
    within them and a capacity [N > 0], [back()] returns without failing:
    a reference to slot [m_sentinel - 1] when [m_sentinel > 0], and
    otherwise what [end()] points to, which is then slot [0].  With
    capacity [0] there is no slot, and [back()] on the then empty
    container is undefined behaviour. *)
Theorem back_slot (N : nat) c :
  storage_ok N c → I1 N c →
  (0 < N →
     (0 < m_sentinel c → back c = Returns (m_sentinel c - 1) c)
     ∧ (m_sentinel c = 0 → end_ c = Returns 0 c ∧ back c = Returns 0 c))
  ∧ (N = 0 → back c = Undefined).
Proof.
  unfold storage_ok, I1. intros Hl Hi. split.
  - intros HN. split.
    + intros Hpos. apply back_nonempty; lia.
    + intros H0. rewrite end_offset, H0. split; [done|].
      apply back_empty; lia.
  - intros HN. apply back_no_slot; lia.
Qed.

(** Reading through [back()]: the last live element, or slot [0] of an
    empty container with room for one. *)
Lemma back_value c v :
  elems c !! (m_sentinel c - 1) = Some v →
  (r ← back; load r) c = Returns v c.
Proof.
  intros Hv. unfold mbind at 1. unfold method_bind.
  destruct (decide (m_sentinel c = 0)) as [H0|Hpos].
  - rewrite H0 in Hv. pose proof (lookup_lt_Some _ _ _ Hv).
    rewrite back_empty by done. by apply load_slot.
  - pose proof (lookup_lt_Some _ _ _ Hv).
    rewrite back_nonempty by lia. by apply load_slot.
Qed.

End Access.

(** ** Invariant I1 *)

Section Invariant.
Context {T : Type}.
Variables (N : nat) (NDEBUG : bool).
Implicit Types (c : SentinelArray T) (o : operation T).

(** The calls that do not write the sentinel leave it alone, and no call
    changes the number of slots. *)
Lemma perform_I1 o c c' :
  storage_ok N c → I1 N c → within_precondition N o →
  survives (perform N NDEBUG o c) c' →
  storage_ok N c' ∧ I1 N c'.
Proof.
  intros Hl Hi Hpre. destruct o as [init|s|pos| | | | |pos v]; simpl in *.
  - rewrite operator_assign_fits by done. simpl. intros <-.
    split; [by apply written_storage_ok | done].
  - intros <-. done.
  - unfold mbind, method_bind.
    destruct (at_frame c pos) as [[r ->]|[w ->]]; simpl; by intros <-.
  - unfold mbind at 1. unfold method_bind.
    destruct (back_frame c) as [[p ->]| ->]; simpl; [by intros <- | done].
  - by intros <-.
  - by intros <-.
  - by intros <-.
  - unfold operator_subscript, mbind, method_bind, mret, method_ret, store.
    case_decide; simpl; [|done]. intros <-.
    unfold storage_ok, I1 in *. simpl. by rewrite length_insert.
Qed.

(** I1 holds throughout the life of an object that a sequence constructor
    built and that is used within the preconditions. *)
Lemma sequence_built_I1 c :
  sequence_built N NDEBUG c → storage_ok N c ∧ I1 N c.
Proof.
  induction 1 as [raw init c Hl Hk Hc|raw range c Hl Hk Hc|c o c' _ IH Hpre Hs].
  - rewrite SentinelArray_init_fits in Hc by done. simplify_eq.
    split; [by apply written_storage_ok | done].
  - rewrite SentinelArray_range_fits in Hc by done. simplify_eq.
    split; [by apply written_storage_ok | done].
  - destruct IH. by eapply perform_I1.
Qed.

(** The sentinel is stored as given, also when it exceeds the capacity:
    nothing clamps it. *)
Lemma setSentinel_stores_as_given c s :
  (x ← setSentinel s; size) c = Returns s (mkSentinelArray (elems c) s).
Proof. done. Qed.

End Invariant.

(** *** Instances of the above at [SentinelArray<int, N>] *)

Lemma construct_from_sequence_witness :
  (storage_ok 4 raw_int4 ∧ length [42; 1337]%Z ≤ 4) ∧
  ∃ c, SentinelArray_init 4 false [42; 1337]%Z raw_int4 = Returns () c
     ∧ SentinelArray_range 4 false [42; 1337]%Z raw_int4 = Returns () c
     ∧ storage_ok 4 c
     ∧ size c = Returns (length [42; 1337]%Z) c
     ∧ (∀ i, i < length [42; 1337]%Z → elems c !! i = [42; 1337]%Z !! i)
     ∧ (∀ fuel, length [42; 1337]%Z ≤ fuel →
          iterate fuel c = Some (Returns [42; 1337]%Z c)).
Proof.
  split; [split; [reflexivity | simpl; lia] |].
  apply (construct_from_sequence 4 false [42; 1337]%Z raw_int4);
    [reflexivity | simpl; lia].
Defined.

Lemma oversized_sequence_asserts_witness :
  1 < length [7; 8]%Z ∧
  (SentinelArray_init 1 false [7; 8]%Z raw_int1 = AssertionFailure
   ∧ SentinelArray_range 1 false [7; 8]%Z raw_int1 = AssertionFailure
   ∧ operator_assign 1 false [7; 8]%Z raw_int1 = AssertionFailure)
  ∧ (SentinelArray_init 1 true [7; 8]%Z raw_int1 = Undefined
     ∧ SentinelArray_range 1 true [7; 8]%Z raw_int1 = Undefined
     ∧ operator_assign 1 true [7; 8]%Z raw_int1 = Undefined).
Proof.
  split; [simpl; lia |].
  apply (oversized_sequence_asserts 1 [7; 8]%Z raw_int1). simpl; lia.
Defined.

(** With [NDEBUG] defined, constructing or assigning two elements into a
    one-slot container does not end in an assertion failure. *)
Lemma oversized_sequence_ndebug_counterexample :
  1 < length [7; 8]%Z
  ∧ SentinelArray_init 1 true [7; 8]%Z raw_int1 ≠ AssertionFailure
  ∧ operator_assign 1 true [7; 8]%Z raw_int1 ≠ AssertionFailure.
Proof. split; [simpl; lia | split; discriminate]. Qed.

Lemma assign_keeps_tail_witness :
  (storage_ok 4 example_42_1337 ∧ length [9]%Z ≤ 4) ∧
  ∃ c', operator_assign 4 false [9]%Z example_42_1337 = Returns () c'
      ∧ storage_ok 4 c'
      ∧ m_sentinel c' = length [9]%Z
      ∧ (∀ i, i < length [9]%Z → elems c' !! i = [9]%Z !! i)
      ∧ (∀ i, length [9]%Z ≤ i → elems c' !! i = elems example_42_1337 !! i).
Proof.
  split; [split; [reflexivity | simpl; lia] |].
  apply (assign_keeps_tail 4 false [9]%Z example_42_1337);
    [reflexivity | simpl; lia].
Defined.

Lemma at_checks_against_length_witness :
  (* {42, 1337} in four slots: position 2 is below the capacity and is
     refused all the same; position 1 is served *)
  at_ 2 example_42_1337 =
    Throws "array::at: pos (which is 2) >= m_sentinel (which is 2)"
           example_42_1337
  ∧ (r ← at_ 1; load r) example_42_1337 = Returns 1337%Z example_42_1337.
Proof.
  pose proof (at_checks_against_length example_42_1337 2) as (_ & Hthrow & _).
  pose proof (at_checks_against_length example_42_1337 1) as (_ & _ & Hget).
  split.
  - destruct Hthrow as [-> _]; [simpl; lia | reflexivity].
  - destruct Hget as (_ & _ & ->); [simpl; lia | reflexivity].
Defined.

Lemma back_slot_witness :
  (storage_ok 4 example_42_1337 ∧ I1 4 example_42_1337
   ∧ storage_ok 4 empty_int4 ∧ I1 4 empty_int4) ∧
  back example_42_1337 = Returns 1 example_42_1337
  ∧ back empty_int4 = Returns 0 empty_int4.
Proof.
  assert (storage_ok 4 example_42_1337) as Hs1 by reflexivity.
  assert (I1 4 example_42_1337) as Hi1 by (unfold I1; simpl; lia).
  assert (storage_ok 4 empty_int4) as Hs2 by reflexivity.
  assert (I1 4 empty_int4) as Hi2 by (unfold I1; simpl; lia).
  split; [done|]. split.
  - apply (back_slot 4 example_42_1337 Hs1 Hi1); simpl; lia.
  - apply (back_slot 4 empty_int4 Hs2 Hi2); [lia | reflexivity].
Defined.

(** On an empty [SentinelArray<int, 0>], a well-formed object with its
    sentinel within its capacity, [back()] does not return a reference to
    a slot [0]: there is none, and the indirection through [end()] is
    undefined. *)
Lemma back_zero_capacity_counterexample :
  storage_ok 0 empty_int0 ∧ I1 0 empty_int0
  ∧ m_sentinel empty_int0 = 0
  ∧ back empty_int0 = Undefined
  ∧ back empty_int0 ≠ Returns 0 empty_int0.
Proof. unfold I1. repeat split; simpl; try lia; try done. Qed.

(** ** Default construction

    [SentinelArray<int, 4> a;] with automatic storage duration runs the
    defaulted constructor over memory that holds arbitrary words; nothing
    writes [m_sentinel], unlike in the two sequence constructors. *)

(** What the length-dependent operations report on any default-initialised
    object: the word that happened to be in [m_sentinel]. *)
Lemma default_constructed_size {T} (raw : SentinelArray T) :
  (SentinelArray_default ;; size) raw = Returns (m_sentinel raw) raw
  ∧ (SentinelArray_default ;; end_) raw = Returns (m_sentinel raw) raw
  ∧ (SentinelArray_default ;; begin) raw = Returns 0 raw.
Proof. done. Qed.

(** C4.  On the code, a default-initialised [SentinelArray<int, 4>] whose
    memory held 7 in the sentinel word has [size() == 7], and [begin()]
    differs from [end()]: the specified length 0 is not established. *)
Theorem default_constructed_length_not_zero :
  (SentinelArray_default ;; size) raw_int4 = Returns 7 raw_int4
  ∧ (SentinelArray_default ;; b ← begin; e ← end_; mret (bool_decide (b = e)))
      raw_int4 = Returns false raw_int4.
Proof. done. Qed.

(** C5.  On the code, the object left by default-initialising a
    [SentinelArray<int, 4>] over memory whose sentinel word held 7 has its
    four slots and a length of 7: invariant I1 does not hold for it,
    although only a public constructor has run. *)
Theorem default_constructed_breaks_I1 :
  SentinelArray_default raw_int4 = Returns () raw_int4
  ∧ storage_ok 4 raw_int4
  ∧ ¬ I1 4 raw_int4.
Proof. split; [done|]. split; [done|]. unfold I1. simpl. lia. Qed.

(** ** The sentinel setter *)

(** C9.  On the code, [setSentinel(5)] on [SentinelArray<int,4>({42, 1337})]
    returns normally with the sentinel at 5, past the capacity, in every
    build: the function has no assertion, whereas assigning five elements
    to the same object ends in an assertion failure in a build with
    assertions. *)
Theorem setSentinel_accepts_out_of_range :
  setSentinel 5 example_42_1337
    = Returns () (mkSentinelArray [42; 1337; 0; 8]%Z 5)
  ∧ ¬ I1 4 (mkSentinelArray [42; 1337; 0; 8]%Z 5)
  ∧ operator_assign 4 false [1; 2; 3; 4; 5]%Z example_42_1337
    = AssertionFailure.
Proof. split; [done|]. split; [|done]. unfold I1. simpl. lia. Qed.

(** * Further properties of the class *)

(** ** Reverse traversal *)

Section Reverse.
Context {T : Type}.
Implicit Types (c : SentinelArray T).

(** Walking down from base [n] to the start collects the first [n] slots,
    last one first. *)
Lemma rtraverse_collects n : ∀ fuel c,
  n ≤ length (elems c) → n ≤ fuel →
  rtraverse fuel n 0 c = Some (Returns (reverse (take n (elems c))) c).
Proof.
  induction n as [|n IH]; intros fuel c Hn Hfuel.
  - destruct fuel; simpl; by rewrite take_0.
  - destruct fuel as [|fuel]; [lia|]. simpl.
    destruct (lookup_lt_is_Some_2 (elems c) n) as [v Hv]; [lia|].
    rewrite (load_slot n v) by done.
    rewrite Nat.sub_0_r, IH by lia.
    by rewrite (take_S_r _ _ v), reverse_snoc.
Qed.

Lemma riterate_logical_prefix fuel c :
  m_sentinel c ≤ length (elems c) → m_sentinel c ≤ fuel →
  riterate fuel c
  = Some (Returns (reverse (take (m_sentinel c) (elems c))) c).
Proof.
  intros Hs Hfuel.
  unfold riterate, rbegin, rend, begin, get.
  unfold mbind, method_bind, mret, method_ret. simpl.
  by apply rtraverse_collects.
Qed.

(** X1.  Whenever the sentinel lies within the storage, the reverse range
    [rbegin()..rend()] visits exactly the elements that [begin()..end()]
    visits, in the opposite order, and nothing of the tail past the
    sentinel. *)
Theorem reverse_iteration_mirrors_forward fuel c :
  m_sentinel c ≤ length (elems c) → m_sentinel c ≤ fuel →
  ∃ vs, iterate fuel c = Some (Returns vs c)
      ∧ riterate fuel c = Some (Returns (reverse vs) c)
      ∧ length vs = m_sentinel c.
Proof.
  intros Hs Hfuel. exists (take (m_sentinel c) (elems c)).
  split; [by apply iterate_logical_prefix|].
  split; [by apply riterate_logical_prefix|].
  rewrite length_take. lia.
Qed.


End Reverse.

(** ** Moving the sentinel *)

Section Sentinel.
Context {T : Type}.
Variable N : nat.
Implicit Types (c : SentinelArray T).

(** A walk towards an end that lies beyond the storage leaves the storage. *)
Lemma traverse_runs_off fuel : ∀ it last c,
  it ≤ length (elems c) → length (elems c) < last →
  length (elems c) < it + fuel →
  traverse fuel it last c = Some Undefined.
Proof.
  induction fuel as [|fuel IH]; intros it last c Hit Hlast Hfuel; [lia|].
  simpl. rewrite decide_False by lia.
  destruct (decide (it < length (elems c))) as [Hin|Hout].
  - destruct (lookup_lt_is_Some_2 _ _ Hin) as [v Hv].
    rewrite (load_slot it v) by done.
    by rewrite IH by lia.
  - by rewrite load_outside by lia.
Qed.

(** X3.  After [setSentinel(s)] with [s ≤ N], iteration yields the first
    [s] slots.  Lowering the sentinel truncates the previous view; raising
    it keeps the previous view and appends the slots that follow, with
    whatever they hold. *)
Theorem setSentinel_resizes_view fuel c s :
  storage_ok N c → I1 N c → s ≤ N → s ≤ fuel →
  ∃ c' old vs,
    setSentinel s c = Returns () c'
    ∧ iterate (m_sentinel c) c = Some (Returns old c)
    ∧ iterate fuel c' = Some (Returns vs c')
    ∧ (s ≤ m_sentinel c → vs = take s old)
    ∧ (m_sentinel c ≤ s →
         vs = old ++ take (s - m_sentinel c) (drop (m_sentinel c) (elems c))).
Proof.
  unfold storage_ok, I1. intros Hl Hi Hs Hfuel.
  exists (mkSentinelArray (elems c) s), (take (m_sentinel c) (elems c)),
    (take s (elems c)).
  split; [done|].
  split; [apply iterate_logical_prefix; lia|].
  split.
  { apply (iterate_logical_prefix fuel (mkSentinelArray (elems c) s));
      simpl; lia. }
  split; intros Hle.
  - by rewrite take_take, Nat.min_l.
  - rewrite <- (take_drop (m_sentinel c) (elems c)) at 1.
    rewrite take_app, take_take, Nat.min_r, length_take by done.
    do 3 f_equal. lia.
Qed.

(** X4.  After [setSentinel(s)] with [s > N], the range [begin()..end()]
    cannot be walked: the loop leaves the storage before it reaches
    [end()], which is undefined behaviour. *)
Theorem setSentinel_past_capacity_breaks_iteration fuel c s :
  storage_ok N c → N < s → N < fuel →
  (setSentinel s c = Returns () (mkSentinelArray (elems c) s))
  ∧ iterate fuel (mkSentinelArray (elems c) s) = Some Undefined.
Proof.
  unfold storage_ok. intros Hl Hs Hfuel. split; [done|].
  unfold iterate, begin, end_, get, mbind, method_bind, mret, method_ret.
  simpl. apply traverse_runs_off; simpl; lia.
Qed.

End Sentinel.

(** ** Construction, assignment and access together *)

Section Composition.
Context {T : Type}.
Variables (N : nat) (NDEBUG : bool).
Implicit Types (c raw : SentinelArray T) (init : list T).

Lemma read_at_in_range c pos v :
  pos < m_sentinel c → elems c !! pos = Some v →
  (r ← at_ pos; load r) c = Returns v c.
Proof.
  intros Hpos Hv. unfold mbind, method_bind.
  rewrite at_in_range by done. by apply load_slot.
Qed.

(** X5.  A container constructed from a fitting sequence serves the
    sequence through [at]: position [pos] reads the element of the
    sequence at [pos], and every position from the sequence's length on is
    refused with the message for that position and that length, also when
    the position is below the capacity. *)
Theorem constructed_serves_sequence init raw :
  storage_ok N raw → length init ≤ N →
  ∃ c, SentinelArray_init N NDEBUG init raw = Returns () c
     ∧ (∀ pos v, init !! pos = Some v →
          (r ← at_ pos; load r) c = Returns v c)
     ∧ (∀ pos, length init ≤ pos →
          at_ pos c = Throws (at_what pos (length init)) c).
Proof.
  intros Hl Hk. exists (written init raw).
  split; [by apply SentinelArray_init_fits|]. split.
  - intros pos v Hv. pose proof (lookup_lt_Some _ _ _ Hv) as Hpos.
    apply read_at_in_range; [done|].
    by rewrite written_prefix.
  - intros pos Hpos. by apply (at_out_of_range (written init raw)).
Qed.

(** X6.  After construction from a non-empty fitting sequence, [back()]
    reads the last element of the sequence. *)
Theorem constructed_back_is_last init raw v :
  storage_ok N raw → length init ≤ N → last init = Some v →
  ∃ c, SentinelArray_init N NDEBUG init raw = Returns () c
     ∧ (r ← back; load r) c = Returns v c.
Proof.
  intros Hl Hk Hlast. exists (written init raw).
  split; [by apply SentinelArray_init_fits|].
  apply back_value. rewrite last_lookup in Hlast.
  assert (0 < length init).
  { destruct init; [done | simpl; lia]. }
  rewrite written_prefix by (simpl; lia).
  simpl. by rewrite Nat.sub_1_r.
Qed.


(** X8.  Assignment does not clear what it does not overwrite: after
    assigning a sequence and then a shorter one, raising the sentinel back
    to the first length shows the second sequence followed by the
    remaining elements of the first. *)
Theorem shorter_assignment_leaves_stale_elements fuel init1 init2 c :
  storage_ok N c → length init1 ≤ N → length init2 ≤ length init1 →
  length init1 ≤ fuel →
  ∃ c', (operator_assign N NDEBUG init1 ;;
         operator_assign N NDEBUG init2 ;;
         setSentinel (length init1)) c = Returns () c'
      ∧ iterate fuel c'
        = Some (Returns (init2 ++ drop (length init2) init1) c').
Proof.
  intros Hl H1 H2 Hfuel.
  exists (mkSentinelArray (elems (written init2 (written init1 c)))
            (length init1)).
  split.
  - unfold mbind, method_bind.
    rewrite operator_assign_fits by done.
    rewrite operator_assign_fits; [done| |lia].
    by apply written_storage_ok.
  - rewrite iterate_logical_prefix; simpl; [| |done].
    + f_equal. f_equal.
      rewrite drop_app_le by done. rewrite app_assoc.
      apply take_app_length'. rewrite length_app, length_drop. lia.
    + rewrite !length_app, !length_drop, length_app, length_drop.
      unfold storage_ok in Hl. lia.
Qed.

(** X9.  Default construction followed by the assignment of a sequence is
    the construction from that sequence, whatever the memory held: for a
    fitting sequence the object then has the sequence's length, within the
    capacity. *)
Theorem default_then_assign_is_construction init raw :
  storage_ok N raw → length init ≤ N →
  (SentinelArray_default ;; operator_assign N NDEBUG init) raw
  = SentinelArray_init N NDEBUG init raw
  ∧ ∃ c, (SentinelArray_default ;; operator_assign N NDEBUG init) raw
         = Returns () c
       ∧ size c = Returns (length init) c
       ∧ storage_ok N c ∧ I1 N c.
Proof.
  intros Hl Hk. split; [done|]. exists (written init raw).
  split; [by apply (operator_assign_fits N NDEBUG init raw)|].
  split; [done|]. split; [by apply written_storage_ok | done].
Qed.

(** X10.  A write through [operator[]] within the capacity keeps the
    sentinel.  At or past the sentinel it is not seen by iteration; below
    it, iteration shows the new value at that position and the old ones
    elsewhere. *)
Theorem subscript_write_and_view fuel c pos v :
  storage_ok N c → I1 N c → pos < N → m_sentinel c ≤ fuel →
  ∃ c' old,
    (r ← operator_subscript pos; store N r v) c = Returns () c'
    ∧ m_sentinel c' = m_sentinel c
    ∧ iterate fuel c = Some (Returns old c)
    ∧ (m_sentinel c ≤ pos → iterate fuel c' = Some (Returns old c'))
    ∧ (pos < m_sentinel c →
         iterate fuel c' = Some (Returns (<[pos:=v]> old) c')).
Proof.
  unfold storage_ok, I1. intros Hl Hi Hpos Hfuel.
  exists (mkSentinelArray (<[pos:=v]> (elems c)) (m_sentinel c)),
    (take (m_sentinel c) (elems c)).
  split.
  { unfold operator_subscript, mbind, method_bind, mret, method_ret. simpl.
    by apply store_in_range. }
  split; [done|].
  split; [apply iterate_logical_prefix; lia|].
  split; intros Hcmp.
  - rewrite iterate_logical_prefix; simpl;
      [|rewrite length_insert; lia|done].
    by rewrite take_insert_ge.
  - rewrite iterate_logical_prefix; simpl;
      [|rewrite length_insert; lia|done].
    by rewrite take_insert_lt.
Qed.

(** X11.  Construction from exactly [N] elements overwrites the whole
    storage: the object is the sequence with the sentinel at [N], and
    nothing of the memory it was built over remains. *)
Theorem full_construction_overwrites_storage init raw :
  storage_ok N raw → length init = N →
  SentinelArray_init N NDEBUG init raw = Returns () (mkSentinelArray init N).
Proof.
  unfold storage_ok. intros Hl Hk.
  rewrite SentinelArray_init_fits; [|done|lia].
  unfold written. rewrite drop_ge by lia. by rewrite app_nil_r, Hk.
Qed.

End Composition.

(** *** Instances at [SentinelArray<int, 4>] *)

Lemma reverse_iteration_mirrors_forward_witness :
  (m_sentinel example_42_1337 ≤ length (elems example_42_1337)
   ∧ m_sentinel example_42_1337 ≤ 2) ∧
  ∃ vs, iterate 2 example_42_1337 = Some (Returns vs example_42_1337)
      ∧ riterate 2 example_42_1337
        = Some (Returns (reverse vs) example_42_1337)
      ∧ length vs = m_sentinel example_42_1337.
Proof.
  split; [split; simpl; lia |].
  apply (reverse_iteration_mirrors_forward 2 example_42_1337); simpl; lia.
Defined.


Lemma setSentinel_resizes_view_witness :
  (storage_ok 4 example_42_1337 ∧ I1 4 example_42_1337 ∧ 3 ≤ 4 ∧ 3 ≤ 3) ∧
  ∃ c' old vs,
    setSentinel 3 example_42_1337 = Returns () c'
    ∧ iterate (m_sentinel example_42_1337) example_42_1337
      = Some (Returns old example_42_1337)
    ∧ iterate 3 c' = Some (Returns vs c')
    ∧ (3 ≤ m_sentinel example_42_1337 → vs = take 3 old)
    ∧ (m_sentinel example_42_1337 ≤ 3 →
         vs = old ++ take (3 - m_sentinel example_42_1337)
                       (drop (m_sentinel example_42_1337)
                             (elems example_42_1337))).
Proof.
  split; [repeat split; unfold I1; simpl; lia |].
  apply (setSentinel_resizes_view 4 3 example_42_1337 3);
    [reflexivity | unfold I1; simpl; lia | lia | lia].
Defined.

Lemma setSentinel_past_capacity_breaks_iteration_witness :
  (storage_ok 4 example_42_1337 ∧ 4 < 5 ∧ 4 < 6) ∧
  setSentinel 5 example_42_1337
  = Returns () (mkSentinelArray (elems example_42_1337) 5)
  ∧ iterate 6 (mkSentinelArray (elems example_42_1337) 5) = Some Undefined.
Proof.
  split; [repeat split; lia |].
  apply (setSentinel_past_capacity_breaks_iteration 4 6 example_42_1337 5);
    [reflexivity | lia | lia].
Defined.

Lemma constructed_serves_sequence_witness :
  (storage_ok 4 raw_int4 ∧ length [42; 1337]%Z ≤ 4) ∧
  ∃ c, SentinelArray_init 4 false [42; 1337]%Z raw_int4 = Returns () c
     ∧ (∀ pos v, [42; 1337]%Z !! pos = Some v →
          (r ← at_ pos; load r) c = Returns v c)
     ∧ (∀ pos, length [42; 1337]%Z ≤ pos →
          at_ pos c = Throws (at_what pos (length [42; 1337]%Z)) c).
Proof.
  split; [split; [reflexivity | simpl; lia] |].
  apply (constructed_serves_sequence 4 false [42; 1337]%Z raw_int4);
    [reflexivity | simpl; lia].
Defined.

Lemma constructed_back_is_last_witness :
  (storage_ok 4 raw_int4 ∧ length [42; 1337]%Z ≤ 4
   ∧ last [42; 1337]%Z = Some 1337%Z) ∧
  ∃ c, SentinelArray_init 4 false [42; 1337]%Z raw_int4 = Returns () c
     ∧ (r ← back; load r) c = Returns 1337%Z c.
Proof.
  split; [repeat split; simpl; lia |].
  apply (constructed_back_is_last 4 false [42; 1337]%Z raw_int4 1337%Z);
    [reflexivity | simpl; lia | reflexivity].
Defined.


Lemma shorter_assignment_leaves_stale_elements_witness :
  (storage_ok 4 raw_int4 ∧ length [1; 2; 3]%Z ≤ 4
   ∧ length [9]%Z ≤ length [1; 2; 3]%Z ∧ length [1; 2; 3]%Z ≤ 3) ∧
  ∃ c', (operator_assign 4 false [1; 2; 3]%Z ;;
         operator_assign 4 false [9]%Z ;;
         setSentinel (length [1; 2; 3]%Z)) raw_int4 = Returns () c'
      ∧ iterate 3 c'
        = Some (Returns ([9]%Z ++ drop (length [9]%Z) [1; 2; 3]%Z) c').
Proof.
  split; [repeat split; simpl; lia |].
  apply (shorter_assignment_leaves_stale_elements 4 false 3
           [1; 2; 3]%Z [9]%Z raw_int4);
    [reflexivity | simpl; lia | simpl; lia | simpl; lia].
Defined.

Lemma default_then_assign_is_construction_witness :
  (storage_ok 4 raw_int4 ∧ length [42; 1337]%Z ≤ 4) ∧
  (SentinelArray_default ;; operator_assign 4 false [42; 1337]%Z) raw_int4
  = SentinelArray_init 4 false [42; 1337]%Z raw_int4
  ∧ ∃ c, (SentinelArray_default ;; operator_assign 4 false [42; 1337]%Z)
           raw_int4 = Returns () c
       ∧ size c = Returns (length [42; 1337]%Z) c
       ∧ storage_ok 4 c ∧ I1 4 c.
Proof.
  split; [split; [reflexivity | simpl; lia] |].
  apply (default_then_assign_is_construction 4 false [42; 1337]%Z raw_int4);
    [reflexivity | simpl; lia].
Defined.

Lemma subscript_write_and_view_witness :
  (storage_ok 4 example_42_1337 ∧ I1 4 example_42_1337 ∧ 3 < 4
   ∧ m_sentinel example_42_1337 ≤ 2) ∧
  ∃ c' old,
    (r ← operator_subscript 3; store 4 r 77%Z) example_42_1337
    = Returns () c'
    ∧ m_sentinel c' = m_sentinel example_42_1337
    ∧ iterate 2 example_42_1337 = Some (Returns old example_42_1337)
    ∧ (m_sentinel example_42_1337 ≤ 3 →
         iterate 2 c' = Some (Returns old c'))
    ∧ (3 < m_sentinel example_42_1337 →
         iterate 2 c' = Some (Returns (<[3:=77%Z]> old) c')).
Proof.
  split; [repeat split; unfold I1; simpl; lia |].
  apply (subscript_write_and_view 4 2 example_42_1337 3 77%Z);
    [reflexivity | unfold I1; simpl; lia | lia | simpl; lia].
Defined.

Lemma full_construction_overwrites_storage_witness :
  (storage_ok 4 raw_int4 ∧ length [1; 2; 3; 4]%Z = 4) ∧
  SentinelArray_init 4 false [1; 2; 3; 4]%Z raw_int4
  = Returns () (mkSentinelArray [1; 2; 3; 4]%Z 4).
Proof.
  split; [split; reflexivity |].
  apply (full_construction_overwrites_storage 4 false [1; 2; 3; 4]%Z raw_int4);
    reflexivity.
Defined.
